(** * ravif: cancellation token, fork-join fallback and encode orchestration

    Shallow embedding of [src/ravif/src/cancel.rs] (the [CancellationToken]),
    of the sequential [rayoff::join] of [src/ravif/src/lib.rs], and of the
    encode orchestrator (configuration, alpha detection, polling loop) whose
    source file is not part of the tree and is modelled from the spec. *)

From stdpp Require Import base gmap sets list.
From Stdlib Require Import QArith Lia.
Open Scope nat_scope.

(* ------------------------------------------------------------------ *)
(** ** [cancel.rs]: the token over a shared store of atomic booleans   *)
(* ------------------------------------------------------------------ *)

Module Cancel.

(** A location of an [Arc<AtomicBool>]. *)
Definition loc := nat.

(** The heap of atomic booleans: every [Arc::new(AtomicBool::new(..))]
    allocates one cell; all clones of the [Arc] point to the same cell. *)
Abbreviation store := (gmap loc bool).

(** [pub struct CancellationToken { cancelled: Arc<AtomicBool> }] *)
Record CancellationToken := { cancelled : loc }.

(** [#[derive(Clone)]]: cloning an [Arc] copies the pointer, not the cell. *)
Definition clone (t : CancellationToken) : CancellationToken :=
  {| cancelled := cancelled t |}.

(** [new()]: [Arc::new(AtomicBool::new(false))] in a fresh cell. *)
Definition new (σ : store) : CancellationToken * store :=
  let l := fresh (dom σ) in
  ({| cancelled := l |}, <[l := false]> σ).

(** [impl Default]: [Self::new()]. *)
Definition default (σ : store) : CancellationToken * store := new σ.

(** [cancel(&self)]: [self.cancelled.store(true, Relaxed)]. *)
Definition cancel (t : CancellationToken) (σ : store) : store :=
  <[cancelled t := true]> σ.

(** [is_cancelled(&self)]: [self.cancelled.load(Relaxed)].  A live token
    always points to an allocated cell; an unallocated one reads as [false]. *)
Definition is_cancelled (t : CancellationToken) (σ : store) : bool :=
  match σ !! cancelled t with Some b => b | None => false end.

(** [reset(&self)]: [self.cancelled.store(false, Relaxed)]. *)
Definition reset (t : CancellationToken) (σ : store) : store :=
  <[cancelled t := false]> σ.

(** The [n]-th clone of a token (a clone of a clone of ...). *)
Definition clone_n (n : nat) (t : CancellationToken) : CancellationToken :=
  Nat.iter n clone t.

(** A call made on some token (or clone) by some thread. *)
Inductive op := OpCancel (t : CancellationToken) | OpReset (t : CancellationToken).

Definition exec_op (o : op) (σ : store) : store :=
  match o with OpCancel t => cancel t σ | OpReset t => reset t σ end.

(** The calls, in the order in which their stores take effect. *)
Fixpoint exec_ops (os : list op) (σ : store) : store :=
  match os with [] => σ | o :: os' => exec_ops os' (exec_op o σ) end.

Definition op_cell (o : op) : loc :=
  match o with OpCancel t => cancelled t | OpReset t => cancelled t end.

Definition op_value (o : op) : bool :=
  match o with OpCancel _ => true | OpReset _ => false end.

(** The value stored by the last call on cell [l], if any. *)
Fixpoint last_write (l : loc) (os : list op) : option bool :=
  match os with
  | [] => None
  | o :: os' =>
      match last_write l os' with
      | Some v => Some v
      | None => if decide (op_cell o = l) then Some (op_value o) else None
      end
  end.

End Cancel.

(* ------------------------------------------------------------------ *)
(** ** [lib.rs]: [mod rayoff] (the build without the [threading] feature) *)
(* ------------------------------------------------------------------ *)

Module Rayoff.

(** A closure [impl FnOnce() -> A] run against a store [S]: it reads the
    store, updates it atomically, or returns its value. *)
Inductive prog (S A : Type) : Type :=
| Ret (a : A)
| Get (k : S -> prog S A)
| Upd (f : S -> S) (k : prog S A).

Arguments Ret {S A} a.

Arguments Get {S A} k.
Arguments Upd {S A} f k.



(** Calling the closure: run it to completion. *)
Fixpoint run {S A} (p : prog S A) (s : S) : A * S :=
  match p with
  | Ret a => (a, s)
  | Get k => run (k s) s
  | Upd f k => run k (f s)
  end.

Fixpoint bind {S A B} (p : prog S A) (k : A -> prog S B) : prog S B :=
  match p with
  | Ret a => k a
  | Get g => Get (fun s => bind (g s) k)
  | Upd f p' => Upd f (bind p' k)
  end.

(** [pub fn join(a, b) -> (A, B) { (a(), b()) }]: [a] runs to completion,
    then [b]. *)
Definition join {S A B} (a : prog S A) (b : prog S B) : prog S (A * B) :=
  bind a (fun x => bind b (fun y => Ret (x, y))).

(** Fork-join on two worker threads: the atomic steps of both closures
    interleave in any order on the shared store. *)
Inductive par_step {S A B} :
  prog S A * prog S B * S -> prog S A * prog S B * S -> Prop :=
| par_left_get k b s : par_step (Get k, b, s) (k s, b, s)
| par_left_upd f k b s : par_step (Upd f k, b, s) (k, b, f s)
| par_right_get a k s : par_step (a, Get k, s) (a, k s, s)
| par_right_upd a f k s : par_step (a, Upd f k, s) (a, k, f s).

Inductive par_steps {S A B} :
  prog S A * prog S B * S -> prog S A * prog S B * S -> Prop :=
| par_refl c : par_steps c c
| par_cons c1 c2 c3 : par_step c1 c2 -> par_steps c2 c3 -> par_steps c1 c3.

(** Independent jobs: each one owns its half of the store (the colour job
    its own buffers, the alpha job its own). *)
Fixpoint lift_l {Sa Sb A} (p : prog Sa A) : prog (Sa * Sb) A :=
  match p with
  | Ret a => Ret a
  | Get k => Get (fun s => lift_l (k s.1))
  | Upd f k => Upd (fun s => (f s.1, s.2)) (lift_l k)
  end.

Fixpoint lift_r {Sa Sb B} (p : prog Sb B) : prog (Sa * Sb) B :=
  match p with
  | Ret b => Ret b
  | Get k => Get (fun s => lift_r (k s.2))
  | Upd f k => Upd (fun s => (s.1, f s.2)) (lift_r k)
  end.

End Rayoff.

(* ------------------------------------------------------------------ *)
(** ** The encoder ([av1encoder.rs], [dirtyalpha.rs], [error.rs])      *)
(* ------------------------------------------------------------------ *)

Module Encode.
Import Cancel.

(** Modelled from the spec: [error.rs] is not in the tree; §7 lists the
    error kinds. *)
Inductive Error := InvalidConfig | Cancelled | EncodingFailed | MuxingFailed.

(** [Result<T, Error>]. *)
Inductive Result (T : Type) := Ok (v : T) | Err (e : Error).
Arguments Ok {T} v.
Arguments Err {T} e.

(** Modelled from the spec: [av1encoder.rs] is not in the tree; §3 names
    the alpha colour modes, bit depths and colour models. *)
Inductive AlphaColorMode := UnassociatedDirty | UnassociatedClean | Premultiplied.
Inductive BitDepth := Eight | Ten | Auto.
Inductive ColorModel := YCbCr | RGB.

(** [rgb::RGBA8] / [rgb::RGB8]: channels are bytes, 0..255. *)
Record RGBA8 := { r : Z; g : Z; b : Z; a : Z }.
Record RGB8 := { r3 : Z; g3 : Z; b3 : Z }.

(** [imgref::Img]: a [width] x [height] buffer in row-major order. *)
Record Img (P : Type) := { width : nat; height : nat; pixels : list P }.
Arguments width {P} _.
Arguments height {P} _.
Arguments pixels {P} _.

(** Modelled from the spec (§3 EncoderConfig): the builder-populated
    configuration.  Quality and alpha quality are [f32] in 0..100 (taken as
    rationals), speed a [u8] in 1..10, the timeout a duration in ticks;
    the alpha quality defaults to the colour quality. *)
Record Encoder := {
  quality : Q;
  alpha_quality : option Q;
  speed : Z;
  bit_depth : BitDepth;
  color_model : ColorModel;
  alpha_color_mode : AlphaColorMode;
  num_threads : option nat;
  cancellation_token : option CancellationToken;
  timeout : option nat }.

(** Modelled from the spec: [Encoder::new()] (the starting values are
    not fixed by the spec; those of the crate's documentation are used). *)
Definition new : Encoder := {|
  quality := 80; alpha_quality := None; speed := 4; bit_depth := Auto;
  color_model := YCbCr; alpha_color_mode := UnassociatedClean;
  num_threads := None; cancellation_token := None; timeout := None |}.

(** Modelled from the spec (§4.2): chained setters, each a pure value
    transformation [fn with_x(mut self, x) -> Self]; no check at set time. *)
Definition with_quality (e : Encoder) (q : Q) : Encoder :=
  {| quality := q; alpha_quality := alpha_quality e; speed := speed e;
     bit_depth := bit_depth e; color_model := color_model e;
     alpha_color_mode := alpha_color_mode e; num_threads := num_threads e;
     cancellation_token := cancellation_token e; timeout := timeout e |}.
Definition with_alpha_quality (e : Encoder) (q : Q) : Encoder :=
  {| quality := quality e; alpha_quality := Some q; speed := speed e;
     bit_depth := bit_depth e; color_model := color_model e;
     alpha_color_mode := alpha_color_mode e; num_threads := num_threads e;
     cancellation_token := cancellation_token e; timeout := timeout e |}.
Definition with_speed (e : Encoder) (s : Z) : Encoder :=
  {| quality := quality e; alpha_quality := alpha_quality e; speed := s;
     bit_depth := bit_depth e; color_model := color_model e;
     alpha_color_mode := alpha_color_mode e; num_threads := num_threads e;
     cancellation_token := cancellation_token e; timeout := timeout e |}.
Definition with_bit_depth (e : Encoder) (d : BitDepth) : Encoder :=
  {| quality := quality e; alpha_quality := alpha_quality e; speed := speed e;
     bit_depth := d; color_model := color_model e;
     alpha_color_mode := alpha_color_mode e; num_threads := num_threads e;
     cancellation_token := cancellation_token e; timeout := timeout e |}.
Definition with_internal_color_model (e : Encoder) (m : ColorModel) : Encoder :=
  {| quality := quality e; alpha_quality := alpha_quality e; speed := speed e;
     bit_depth := bit_depth e; color_model := m;
     alpha_color_mode := alpha_color_mode e; num_threads := num_threads e;
     cancellation_token := cancellation_token e; timeout := timeout e |}.
Definition with_alpha_color_mode (e : Encoder) (m : AlphaColorMode) : Encoder :=
  {| quality := quality e; alpha_quality := alpha_quality e; speed := speed e;
     bit_depth := bit_depth e; color_model := color_model e;
     alpha_color_mode := m; num_threads := num_threads e;
     cancellation_token := cancellation_token e; timeout := timeout e |}.
Definition with_num_threads (e : Encoder) (n : option nat) : Encoder :=
  {| quality := quality e; alpha_quality := alpha_quality e; speed := speed e;
     bit_depth := bit_depth e; color_model := color_model e;
     alpha_color_mode := alpha_color_mode e; num_threads := n;
     cancellation_token := cancellation_token e; timeout := timeout e |}.
Definition with_cancellation_token (e : Encoder) (t : CancellationToken) : Encoder :=
  {| quality := quality e; alpha_quality := alpha_quality e; speed := speed e;
     bit_depth := bit_depth e; color_model := color_model e;
     alpha_color_mode := alpha_color_mode e; num_threads := num_threads e;
     cancellation_token := Some t; timeout := timeout e |}.
Definition with_timeout (e : Encoder) (d : nat) : Encoder :=
  {| quality := quality e; alpha_quality := alpha_quality e; speed := speed e;
     bit_depth := bit_depth e; color_model := color_model e;
     alpha_color_mode := alpha_color_mode e; num_threads := num_threads e;
     cancellation_token := cancellation_token e; timeout := Some d |}.

(** The parameters the codec engine is configured with (§6: pixel data
    plus quality/speed parameters); the token and the timeout stay with the
    orchestrator. *)
Record Av1Params := {
  p_quality : Q;
  p_alpha_quality : Q;
  p_speed : Z;
  p_bit_depth : BitDepth;
  p_color_model : ColorModel;
  p_threads : option nat }.

Definition av1_params (e : Encoder) : Av1Params := {|
  p_quality := quality e;
  p_alpha_quality := match alpha_quality e with Some q => q | None => quality e end;
  p_speed := speed e; p_bit_depth := bit_depth e; p_color_model := color_model e;
  p_threads := num_threads e |}.

(** Modelled from the spec (§4.2): the ranges checked when the orchestrator
    consumes the values. *)
Definition quality_ok (q : Q) : bool := Qle_bool 0 q && Qle_bool q 100.

Definition valid_config (e : Encoder) : bool :=
  quality_ok (quality e)
  && match alpha_quality e with Some q => quality_ok q | None => true end
  && (1 <=? speed e)%Z && (speed e <=? 10)%Z.

(** Modelled from the spec (§3, §4.3): the image has an alpha plane when
    some pixel has alpha < 255. *)
Definition has_alpha (px : list RGBA8) : bool :=
  existsb (fun p => (a p <? 255)%Z) px.

(** [RGB8] to opaque [RGBA8]. *)
Definition with_alpha255 (p : RGB8) : RGBA8 :=
  {| r := r3 p; g := g3 p; b := b3 p; a := 255 |}.

(** Modelled from the spec: the plane a codec job compresses. *)
Inductive Plane := Color | Alpha.

(** A codec output unit (a packet of compressed bytes). *)
Definition packet := list Z.

(** Modelled from the spec (§4.4): one plane job.  Before every unit the
    predicate is polled; when it holds the job stops; otherwise the codec
    produces its next unit, which takes [dur k] ticks. *)
Inductive JobStatus := JCompleted | JCancelled.

Record JobRun := {
  jr_status : JobStatus;
  jr_packets : list packet;
  jr_end : nat;
  jr_work : list (nat * nat) }.

Fixpoint run_job (pred : nat -> bool) (dur : nat -> nat) (k : nat)
    (units : list packet) (t : nat) : JobRun :=
  if pred t then {| jr_status := JCancelled; jr_packets := []; jr_end := t; jr_work := [] |}
  else match units with
  | [] => {| jr_status := JCompleted; jr_packets := []; jr_end := t; jr_work := [] |}
  | u :: rest =>
      let t' := (t + dur k)%nat in
      let rr := run_job pred dur (S k) rest t' in
      {| jr_status := jr_status rr; jr_packets := u :: jr_packets rr;
         jr_end := jr_end rr; jr_work := (t, t') :: jr_work rr |}
  end.

(** The two schedulings of the colour and alpha jobs: [rayoff::join]
    (colour, then alpha) or [rayon::join] (both from the fork). *)
Inductive Schedule := Sequential | Concurrent.

(** The timing environment of a call, time 0 being the call: when (if
    ever) another thread calls [cancel()] on the configured token, and how
    long the [k]-th unit of each plane takes. *)
Record Env := {
  cancel_at : option nat;
  unit_time : Plane -> nat -> nat }.

(** The flag of the configured token at the start of the call. *)
Definition token_flag (σ : store) (e : Encoder) : bool :=
  match cancellation_token e with Some t => is_cancelled t σ | None => false end.

(** Modelled from the spec (§4.4): the cancellation predicate at time [t],
    token flag OR deadline exceeded. *)
Definition cancel_pred (flag0 : bool) (env : Env) (e : Encoder) (t : nat) : bool :=
  (match cancellation_token e with
   | Some _ => flag0 || match cancel_at env with Some c => (c <=? t) | None => false end
   | None => false end)
  || match timeout e with Some d => (d <=? t) | None => false end.

(** [EncodedImage]. *)
Record EncodedImage := {
  avif_file : list Z;
  color_byte_size : nat;
  alpha_byte_size : nat }.

(** Modelled from the spec (§4.4): the orchestrator's terminal states. *)
Inductive State := Completed | CancelledS | Failed.

(** What a call returns, with the trace of codec work per plane and the
    time at which it returns. *)
Record Outcome := {
  result : Result EncodedImage;
  final_state : State;
  color_work : list (nat * nat);
  alpha_work : list (nat * nat);
  finish : nat }.

(** The units of codec work, among [w], that end after time [T]. *)
Definition work_after (T : nat) (w : list (nat * nat)) : nat :=
  length (List.filter (fun u => T <? u.2) w).

(** The predicate, once true, stays true. *)
Definition pred_mono (pred : nat -> bool) : Prop :=
  forall t t', t <= t' -> pred t = true -> pred t' = true.

Section Orchestrator.

(** The codec engine (external): for a plane, the configuration and the
    preprocessed pixels, the finite sequence of units it produces, or
    [None] when it rejects the input. *)
Variable codec : Plane -> Av1Params -> nat -> nat -> list RGBA8 -> option (list packet).
(** The container muxer (external): [assemble(primary, alpha, metadata)]. *)
Variable assemble : list Z -> option (list Z) -> nat -> nat -> option (list Z).
(** The deterministic representative colour of [UnassociatedClean]. *)
Variable clean_fill : list RGBA8 -> RGBA8.

(** Modelled from the spec (§4.3): the buffer handed to the colour job.
    Dirty passes it through; Clean rewrites the RGB of fully transparent
    pixels to one representative colour; Premultiplied scales RGB by
    alpha. *)
Definition preprocess (m : AlphaColorMode) (px : list RGBA8) : list RGBA8 :=
  match m with
  | UnassociatedDirty => px
  | UnassociatedClean =>
      let f := clean_fill px in
      map (fun p => if (a p =? 0)%Z then {| r := r f; g := g f; b := b f; a := 0 |} else p) px
  | Premultiplied =>
      map (fun p => {| r := (r p * a p + 127) / 255; g := (g p * a p + 127) / 255;
                       b := (b p * a p + 127) / 255; a := a p |}) px
  end.

Definition failed (err : Error) : Outcome :=
  {| result := Err err; final_state := Failed; color_work := [];
     alpha_work := []; finish := 0 |}.

(** Modelled from the spec (§4.4, §4.5): the running phase.  The colour
    job and (when there is an alpha plane) the alpha job poll [pred]; a
    cancelled job cancels the call and its partial packets are dropped;
    otherwise both payloads go to the muxer. *)
Definition run_planes (sched : Schedule) (env : Env) (pred : nat -> bool)
    (cu : list packet) (au : option (list packet)) (w h : nat) : Outcome :=
  let cr := run_job pred (unit_time env Color) 0 cu 0 in
  let ar := match au with
            | Some us => Some (run_job pred (unit_time env Alpha) 0 us
                                 (match sched with Sequential => jr_end cr | Concurrent => 0 end))
            | None => None end in
  let aw := match ar with Some x => jr_work x | None => [] end in
  let fin := match ar with
             | Some x => match sched with Sequential => jr_end x
                                        | Concurrent => Nat.max (jr_end cr) (jr_end x) end
             | None => jr_end cr end in
  let astatus := match ar with Some x => jr_status x | None => JCompleted end in
  match jr_status cr, astatus with
  | JCompleted, JCompleted =>
      let cbytes := concat (jr_packets cr) in
      let abytes := match ar with Some x => Some (concat (jr_packets x)) | None => None end in
      match assemble cbytes abytes w h with
      | Some file =>
          {| result := Ok {| avif_file := file; color_byte_size := length cbytes;
                             alpha_byte_size := match abytes with Some x => length x | None => 0 end |};
             final_state := Completed; color_work := jr_work cr; alpha_work := aw;
             finish := fin |}
      | None =>
          {| result := Err MuxingFailed; final_state := Failed; color_work := jr_work cr;
             alpha_work := aw; finish := fin |}
      end
  | _, _ =>
      {| result := Err Cancelled; final_state := CancelledS; color_work := jr_work cr;
         alpha_work := aw; finish := fin |}
  end.

(** Modelled from the spec (§4.4): the orchestrator.  A token that is
    already cancelled ends the call at once, before the codec is touched;
    then the configuration is validated; then the codec is set up for each
    plane and the jobs run. *)
Definition encode_planes (sched : Schedule) (env : Env) (σ : store) (e : Encoder)
    (w h : nat) (px : list RGBA8) (use_alpha : bool) : Outcome :=
  if token_flag σ e then
    {| result := Err Cancelled; final_state := CancelledS; color_work := [];
       alpha_work := []; finish := 0 |}
  else if negb (valid_config e) then failed InvalidConfig
  else
  match codec Color (av1_params e) w h px with
  | None => failed EncodingFailed
  | Some cu =>
  match (if use_alpha then option_map Some (codec Alpha (av1_params e) w h px) else Some None) with
  | None => failed EncodingFailed
  | Some au => run_planes sched env (cancel_pred (token_flag σ e) env e) cu au w h
  end
  end.

(** The result of a call in which the predicate never holds: the codec
    output of each plane, muxed. *)
Definition uncancelled_result (e : Encoder) (w h : nat) (px : list RGBA8)
    (use_alpha : bool) : Result EncodedImage :=
  if negb (valid_config e) then Err InvalidConfig
  else
  match codec Color (av1_params e) w h px with
  | None => Err EncodingFailed
  | Some cu =>
  match (if use_alpha then option_map Some (codec Alpha (av1_params e) w h px) else Some None) with
  | None => Err EncodingFailed
  | Some au =>
      let abytes := match au with Some us => Some (concat us) | None => None end in
      match assemble (concat cu) abytes w h with
      | Some file =>
          Ok {| avif_file := file; color_byte_size := length (concat cu);
                alpha_byte_size := match abytes with Some x => length x | None => 0 end |}
      | None => Err MuxingFailed
      end
  end
  end.

(** Modelled from the spec: [Encoder::encode_rgba]. *)
Definition encode_rgba (sched : Schedule) (env : Env) (σ : store) (e : Encoder)
    (img : Img RGBA8) : Outcome :=
  encode_planes sched env σ e (width img) (height img)
    (preprocess (alpha_color_mode e) (pixels img)) (has_alpha (pixels img)).

(** Modelled from the spec: [Encoder::encode_rgb] (no alpha plane). *)
Definition encode_rgb (sched : Schedule) (env : Env) (σ : store) (e : Encoder)
    (img : Img RGB8) : Outcome :=
  encode_planes sched env σ e (width img) (height img)
    (map with_alpha255 (pixels img)) false.

End Orchestrator.

End Encode.

(* ------------------------------------------------------------------ *)
(** ** A concrete codec engine and muxer, to run the orchestrator       *)
(* ------------------------------------------------------------------ *)

Module Demo.
Import Encode.

(** One unit per pixel: the colour job emits the RGB bytes, the alpha job
    the alpha byte; an empty image is rejected. *)
Definition codec (pl : Plane) (prm : Av1Params) (w h : nat) (px : list RGBA8)
    : option (list packet) :=
  match px with
  | [] => None
  | _ => Some (map (fun p => match pl with Color => [r p; g p; b p] | Alpha => [a p] end) px)
  end.

Definition assemble (c : list Z) (al : option (list Z)) (w h : nat) : option (list Z) :=
  Some (Z.of_nat w :: Z.of_nat h :: c ++ match al with Some x => x | None => [] end).

Definition clean_fill (px : list RGBA8) : RGBA8 :=
  {| r := 0; g := 0; b := 0; a := 0 |}.

(** Every unit takes [n] ticks. *)
Definition env (c : option nat) (n : nat) : Env :=
  {| cancel_at := c; unit_time := fun _ _ => n |}.

Definition px (r0 g0 b0 a0 : Z) : RGBA8 := {| r := r0; g := g0; b := b0; a := a0 |}.

Definition img1 (p : RGBA8) : Img RGBA8 := {| width := 1; height := 1; pixels := [p] |}.

(** A token whose cell is already set. *)
Definition tok0 : Cancel.CancellationToken := {| Cancel.cancelled := 0 |}.
Definition store0 : Cancel.store := <[0 := true]> ∅.

End Demo.

(* ================================================================== *)
(** * Proofs                                                           *)
(* ================================================================== *)

Import Cancel.

Lemma clone_n_cancelled n t : cancelled (clone_n n t) = cancelled t.
Proof. induction n as [|n IH]; simpl; [done | exact IH]. Qed.

Lemma is_cancelled_insert_same t t' v (σ : store) :
  cancelled t' = cancelled t -> is_cancelled t' (<[cancelled t := v]> σ) = v.
Proof. intros Heq. unfold is_cancelled. rewrite Heq, lookup_insert_eq. done. Qed.

Lemma is_cancelled_insert_other t t' v (σ : store) :
  cancelled t' <> cancelled t -> is_cancelled t' (<[cancelled t := v]> σ) = is_cancelled t' σ.
Proof. intros Hne. unfold is_cancelled. rewrite lookup_insert_ne; [done|congruence]. Qed.

(** C1: a fresh token is not cancelled; [cancel()] on any clone is seen
    by every clone of the same token; [reset()] on any clone clears it for
    every clone. *)
Theorem cancellation_token_clone_contract (σ σ' : store) (t : CancellationToken) (n m : nat) :
  is_cancelled (new σ).1 (new σ).2 = false /\
  is_cancelled (clone_n m t) (cancel (clone_n n t) σ') = true /\
  is_cancelled (clone_n m t) (reset (clone_n n t) σ') = false.
Proof.
  split; [|split].
  - unfold new, is_cancelled; simpl. rewrite lookup_insert_eq. done.
  - unfold cancel. apply is_cancelled_insert_same. rewrite !clone_n_cancelled. done.
  - unfold reset. apply is_cancelled_insert_same. rewrite !clone_n_cancelled. done.
Qed.

(** C9: [CancellationToken::default()] is [CancellationToken::new()]: a
    token that is not cancelled, whose cell differs from that of every
    token created before, so that neither its creation nor its [cancel()]
    or [reset()] changes what an earlier token reads. *)
Theorem default_is_fresh_new (σ σ' : store) (t' : CancellationToken)
    (Hprev : cancelled t' ∈ dom σ) :
  default σ = new σ /\
  is_cancelled (default σ).1 (default σ).2 = false /\
  cancelled (default σ).1 <> cancelled t' /\
  is_cancelled t' (default σ).2 = is_cancelled t' σ /\
  is_cancelled t' (cancel (default σ).1 σ') = is_cancelled t' σ' /\
  is_cancelled t' (reset (default σ).1 σ') = is_cancelled t' σ'.
Proof.
  assert (Hne : cancelled (default σ).1 <> cancelled t').
  { unfold default, new; simpl. intros Heq. apply (is_fresh (dom σ)). rewrite Heq. exact Hprev. }
  split; [done|]. split; [|split; [exact Hne|split; [|split]]].
  - unfold default, new, is_cancelled; simpl. rewrite lookup_insert_eq. done.
  - unfold default, new in *; simpl in *.
    exact (is_cancelled_insert_other {| cancelled := fresh (dom σ) |} t' false σ ltac:(cbn in *; intros Heq; apply Hne; symmetry; exact Heq)).
  - unfold cancel. apply is_cancelled_insert_other. congruence.
  - unfold reset. apply is_cancelled_insert_other. congruence.
Qed.

Lemma default_is_fresh_new_witness :
  cancelled {| cancelled := 0 |} ∈ dom (<[0 := true]> (∅ : store)) /\
  is_cancelled (default (<[0 := true]> ∅)).1 (default (<[0 := true]> ∅)).2 = false.
Proof.
  assert (H : cancelled {| cancelled := 0 |} ∈ dom (<[0 := true]> (∅ : store))).
  { simpl. rewrite dom_insert_L. set_solver. }
  split; [exact H|].
  exact (proj1 (proj2 (default_is_fresh_new (<[0 := true]> ∅) ∅ {| cancelled := 0 |} H))).
Defined.

Import Rayoff.

Lemma run_bind {S A B} (p : prog S A) (k : A -> prog S B) (s : S) :
  run (bind p k) s = run (k (run p s).1) (run p s).2.
Proof.
  revert s. induction p as [x|g IH|f p IH]; intros s; simpl.
  - done.
  - apply IH.
  - apply IH.
Qed.

Lemma run_join {S A B} (p : prog S A) (q : prog S B) (s : S) :
  run (join p q) s =
  (((run p s).1, (run q (run p s).2).1), (run q (run p s).2).2).
Proof. unfold join. rewrite run_bind, run_bind. done. Qed.

Lemma run_lift_l {Sa Sb A} (p : prog Sa A) (sa : Sa) (sb : Sb) :
  run (lift_l p) (sa, sb) = ((run p sa).1, ((run p sa).2, sb)).
Proof.
  revert sa. induction p as [x|k IH|f p IH]; intros sa; simpl; [done|apply IH|apply IH].
Qed.

Lemma run_lift_r {Sa Sb B} (p : prog Sb B) (sa : Sa) (sb : Sb) :
  run (lift_r p) (sa, sb) = ((run p sb).1, (sa, (run p sb).2)).
Proof.
  revert sb. induction p as [x|k IH|f p IH]; intros sb; simpl; [done|apply IH|apply IH].
Qed.

Lemma par_steps_trans {S A B} (c1 c2 c3 : prog S A * prog S B * S) :
  par_steps c1 c2 -> par_steps c2 c3 -> par_steps c1 c3.
Proof.
  induction 1 as [c|c1 c2 c2' Hs _ IH]; intros H23; [exact H23|].
  eapply par_cons; [exact Hs|]. apply IH, H23.
Qed.

Lemma par_steps_left {S A B} (p : prog S A) (q : prog S B) (s : S) :
  par_steps (p, q, s) (Ret (run p s).1, q, (run p s).2).
Proof.
  revert s. induction p as [x|k IH|f p IH]; intros s; simpl.
  - apply par_refl.
  - eapply par_cons; [apply par_left_get|]. apply IH.
  - eapply par_cons; [apply par_left_upd|]. apply IH.
Qed.

Lemma par_steps_right {S A B} (p : prog S A) (q : prog S B) (s : S) :
  par_steps (p, q, s) (p, Ret (run q s).1, (run q s).2).
Proof.
  revert s. induction q as [x|k IH|f q IH]; intros s; simpl.
  - apply par_refl.
  - eapply par_cons; [apply par_right_get|]. apply IH.
  - eapply par_cons; [apply par_right_upd|]. apply IH.
Qed.

(** Every interleaving of two independent closures that reaches the join
    barrier ends with the values and the store of the sequential runs. *)
Lemma par_steps_independent {Sa Sb A B} (pa : prog Sa A) (pb : prog Sb B)
    (sa : Sa) (sb : Sb) (x : A) (y : B) (s' : Sa * Sb) :
  par_steps (lift_l pa, lift_r pb, (sa, sb)) (Ret x, Ret y, s') ->
  run pa sa = (x, s'.1) /\ run pb sb = (y, s'.2).
Proof.
  intros H.
  remember (lift_l pa, lift_r pb, (sa, sb)) as c eqn:Hc.
  remember (Ret x, Ret y, s') as d eqn:Hd.
  revert pa pb sa sb Hc.
  induction H as [c|c1 c2 c3 Hs Hrest IH]; intros pa pb sa sb Hc; subst.
  - destruct pa, pb; simpl in Hc; inversion Hc; subst; simpl; done.
  - specialize (IH eq_refl).
    destruct pa as [x0|k0|f0 k0], pb as [y0|k1|f1 k1]; simpl in Hs; inversion Hs; subst.
    all: first
      [ match goal with |- run (Get ?k) ?a0 = _ /\ run ?q ?b0 = _ =>
          exact (IH (k a0) q a0 b0 eq_refl) end
      | match goal with |- run ?p ?a0 = _ /\ run (Get ?k) ?b0 = _ =>
          exact (IH p (k b0) a0 b0 eq_refl) end
      | match goal with |- run (Upd ?f ?k) ?a0 = _ /\ run ?q ?b0 = _ =>
          exact (IH k q (f a0) b0 eq_refl) end
      | match goal with |- run ?p ?a0 = _ /\ run (Upd ?f ?k) ?b0 = _ =>
          exact (IH p k a0 (f b0) eq_refl) end ].
Qed.

Import Encode.

Lemma cancel_pred_mono flag0 env e : pred_mono (cancel_pred flag0 env e).
Proof.
  intros t t' Hle. unfold cancel_pred.
  destruct (cancellation_token e), flag0, (cancel_at env) as [c0|], (timeout e) as [d0|];
    simpl; rewrite ?orb_true_iff, ?Nat.leb_le; intuition lia.
Qed.

Lemma run_job_stopped pred dur k us t :
  pred t = true ->
  run_job pred dur k us t = {| jr_status := JCancelled; jr_packets := []; jr_end := t; jr_work := [] |}.
Proof. intros H. destruct us; simpl; rewrite H; done. Qed.

Lemma before_signal pred T t :
  pred_mono pred -> pred T = true -> pred t = false -> t < T.
Proof.
  intros Hm HT Ht. destruct (Nat.lt_ge_cases t T) as [|Hge]; [done|].
  rewrite (Hm T t Hge HT) in Ht. discriminate.
Qed.

Lemma work_after_cons T s e w :
  work_after T ((s, e) :: w) = (if T <? e then 1 else 0) + work_after T w.
Proof. unfold work_after; simpl. destruct (T <? e); done. Qed.

Lemma work_after_app T w1 w2 :
  work_after T (w1 ++ w2) = work_after T w1 + work_after T w2.
Proof. unfold work_after. rewrite List.filter_app, length_app. done. Qed.

(** After the signal a job completes at most the unit it is in, and if it
    does, it ends after the signal. *)
Lemma run_job_work_after pred dur T k us t :
  pred_mono pred -> pred T = true ->
  let rr := run_job pred dur k us t in
  work_after T (jr_work rr) = 0 \/ (work_after T (jr_work rr) = 1 /\ T < jr_end rr).
Proof.
  intros Hm HT. revert k t. induction us as [|u us IH]; intros k t; simpl.
  - destruct (pred t); simpl; left; done.
  - destruct (pred t) eqn:Ht; simpl; [left; done|].
    pose proof (before_signal pred T t Hm HT Ht) as HtT.
    rewrite work_after_cons.
    destruct (T <? t + dur k) eqn:Hlt.
    + apply Nat.ltb_lt in Hlt.
      rewrite (run_job_stopped pred dur (S k) us (t + dur k)); [|apply (Hm T); [lia|done]].
      simpl. right. unfold work_after; simpl. lia.
    + destruct (IH (S k) (t + dur k)) as [H0|[H1 Hend]]; [left; lia|right; split; [lia|done]].
Qed.

(** A job never runs past the signal by more than one unit. *)
Lemma run_job_end_bound pred dur T M k us t :
  pred_mono pred -> pred T = true -> (forall j, dur j <= M) -> t <= T + M ->
  jr_end (run_job pred dur k us t) <= T + M.
Proof.
  intros Hm HT Hd. revert k t. induction us as [|u us IH]; intros k t Ht; simpl.
  - destruct (pred t); simpl; lia.
  - destruct (pred t) eqn:Hp; simpl; [lia|].
    pose proof (before_signal pred T t Hm HT Hp). apply IH. specialize (Hd k). lia.
Qed.

(** A job that ends at or after the signal has been cancelled. *)
Lemma run_job_late_cancelled pred dur T k us t :
  pred_mono pred -> pred T = true ->
  T <= jr_end (run_job pred dur k us t) -> jr_status (run_job pred dur k us t) = JCancelled.
Proof.
  intros Hm HT. revert k t. induction us as [|u us IH]; intros k t; simpl.
  - destruct (pred t) eqn:Hp; simpl; [done|].
    intros Hle. rewrite (Hm T t Hle HT) in Hp. discriminate.
  - destruct (pred t) eqn:Hp; simpl; [done|]. apply IH.
Qed.

(** With a predicate that never holds, a job emits all the codec units. *)
Lemma run_job_never pred dur k us t :
  (forall t', pred t' = false) ->
  jr_status (run_job pred dur k us t) = JCompleted /\ jr_packets (run_job pred dur k us t) = us.
Proof.
  intros Hn. revert k t. induction us as [|u us IH]; intros k t; simpl; rewrite Hn; simpl.
  - done.
  - destruct (IH (S k) (t + dur k)) as [-> ->]. done.
Qed.

Lemma run_job_completed_early pred dur T k us t :
  pred_mono pred -> pred T = true ->
  jr_status (run_job pred dur k us t) = JCompleted -> jr_end (run_job pred dur k us t) < T.
Proof.
  intros Hm HT Hc. destruct (Nat.lt_ge_cases (jr_end (run_job pred dur k us t)) T) as [|Hge]; [done|].
  rewrite (run_job_late_cancelled pred dur T k us t Hm HT Hge) in Hc. discriminate.
Qed.

Section RunPlanes.
Variable assemble : list Z -> option (list Z) -> nat -> nat -> option (list Z).

Lemma run_planes_latency sched env pred cu au w h T M :
  pred_mono pred -> pred T = true -> (forall pl k, unit_time env pl k <= M) ->
  let o := run_planes assemble sched env pred cu au w h in
  work_after T (color_work o) <= 1 /\ work_after T (alpha_work o) <= 1 /\
  (sched = Sequential -> work_after T (color_work o ++ alpha_work o) <= 1) /\
  finish o <= T + M /\
  (final_state o = Completed -> finish o < T).
Proof.
  intros Hm HT Hd. unfold run_planes.
  set (cr := run_job pred (unit_time env Color) 0 cu 0).
  assert (Hcw := run_job_work_after pred (unit_time env Color) T 0 cu 0 Hm HT). fold cr in Hcw.
  assert (Hce : jr_end cr <= T + M)
    by (apply run_job_end_bound; [done|done|intros j; apply Hd|lia]).
  assert (Hcc := run_job_completed_early pred (unit_time env Color) T 0 cu 0 Hm HT). fold cr in Hcc.
  destruct au as [us|].
  - set (st := match sched with Sequential => jr_end cr | Concurrent => 0 end).
    set (ar := run_job pred (unit_time env Alpha) 0 us st).
    assert (Haw := run_job_work_after pred (unit_time env Alpha) T 0 us st Hm HT). fold ar in Haw.
    assert (Hae : jr_end ar <= T + M).
    { apply run_job_end_bound; [done|done|intros j; apply Hd|].
      unfold st; destruct sched; lia. }
    assert (Hac := run_job_completed_early pred (unit_time env Alpha) T 0 us st Hm HT). fold ar in Hac.
    assert (Hseq : sched = Sequential -> work_after T (jr_work cr ++ jr_work ar) <= 1).
    { intros ->. rewrite work_after_app.
      destruct Hcw as [H0|[H1 Hlt]]; [destruct Haw as [|[]]; lia|].
      unfold ar, st. rewrite run_job_stopped; [cbn [jr_work]; change (work_after T []) with 0; lia|].
      apply (Hm T); [lia|done]. }
    destruct (jr_status cr) eqn:Hs1, (jr_status ar) eqn:Hs2;
      [destruct (assemble _ _ w h)|..]; simpl;
      (split; [destruct Hcw as [|[]]; lia|]);
      (split; [destruct Haw as [|[]]; lia|]);
      (split; [exact Hseq|]);
      (split; [destruct sched; lia|]);
      intros Hf; try discriminate;
      specialize (Hcc eq_refl); specialize (Hac eq_refl); destruct sched; lia.
  - destruct (jr_status cr) eqn:Hs1; [destruct (assemble _ _ w h)|]; simpl;
      (split; [destruct Hcw as [|[]]; lia|]);
      (split; [unfold work_after; simpl; lia|]);
      (split; [intros _; rewrite app_nil_r; destruct Hcw as [|[]]; lia|]);
      (split; [lia|]);
      intros Hf; try discriminate; specialize (Hcc eq_refl); lia.
Qed.

End RunPlanes.

Section RunPlanesResult.
Variable assemble : list Z -> option (list Z) -> nat -> nat -> option (list Z).

Lemma run_planes_cancelled sched env pred cu au w h :
  final_state (run_planes assemble sched env pred cu au w h) = CancelledS ->
  result (run_planes assemble sched env pred cu au w h) = Err Cancelled.
Proof.
  unfold run_planes. cbv zeta.
  destruct au; repeat case_match; simpl; congruence.
Qed.

Lemma run_planes_never sched env pred cu au w h :
  (forall t, pred t = false) ->
  result (run_planes assemble sched env pred cu au w h) =
  (let abytes := match au with Some us => Some (concat us) | None => None end in
   match assemble (concat cu) abytes w h with
   | Some file =>
       Ok {| avif_file := file; color_byte_size := length (concat cu);
             alpha_byte_size := match abytes with Some x => length x | None => 0 end |}
   | None => Err MuxingFailed
   end).
Proof.
  intros Hn. unfold run_planes. cbv zeta.
  destruct (run_job_never pred (unit_time env Color) 0 cu 0 Hn) as [Hc1 Hc2].
  rewrite Hc1, Hc2.
  destruct au as [us|].
  - destruct (run_job_never pred (unit_time env Alpha) 0 us
                (match sched with Sequential => jr_end (run_job pred (unit_time env Color) 0 cu 0)
                                | Concurrent => 0 end) Hn) as [Ha1 Ha2].
    rewrite Ha1, Ha2. destruct (assemble _ _ w h); done.
  - destruct (assemble _ _ w h); done.
Qed.

End RunPlanesResult.

Section EncodeProofs.
Variable codec : Plane -> Av1Params -> nat -> nat -> list RGBA8 -> option (list packet).
Variable assemble : list Z -> option (list Z) -> nat -> nat -> option (list Z).
Variable clean_fill : list RGBA8 -> RGBA8.

Lemma encode_planes_cancelled sched env σ e w h px ua :
  final_state (encode_planes codec assemble sched env σ e w h px ua) = CancelledS ->
  result (encode_planes codec assemble sched env σ e w h px ua) = Err Cancelled.
Proof.
  unfold encode_planes.
  destruct (token_flag σ e); [done|].
  destruct (negb (valid_config e)); [simpl; discriminate|].
  destruct (codec Color _ w h px); [|simpl; discriminate].
  destruct (if ua then _ else _); [apply run_planes_cancelled|simpl; discriminate].
Qed.

Lemma encode_planes_latency sched env σ e w h px ua T M :
  (forall pl k, unit_time env pl k <= M) ->
  cancel_pred (token_flag σ e) env e T = true ->
  let o := encode_planes codec assemble sched env σ e w h px ua in
  work_after T (color_work o) <= 1 /\ work_after T (alpha_work o) <= 1 /\
  (sched = Sequential -> work_after T (color_work o ++ alpha_work o) <= 1) /\
  finish o <= T + M /\
  (final_state o = Completed -> finish o < T).
Proof.
  intros Hd HT. unfold encode_planes.
  destruct (token_flag σ e) eqn:Hf.
  { simpl. unfold work_after; simpl. repeat split; try lia. discriminate. }
  destruct (negb (valid_config e)).
  { simpl. unfold work_after; simpl. repeat split; try lia. discriminate. }
  destruct (codec Color _ w h px) as [cu|].
  2:{ simpl. unfold work_after; simpl. repeat split; try lia. discriminate. }
  destruct (if ua then _ else _) as [au|].
  2:{ simpl. unfold work_after; simpl. repeat split; try lia. discriminate. }
  rewrite <- Hf in HT |- *.
  apply run_planes_latency; [apply cancel_pred_mono|exact HT|exact Hd].
Qed.

Lemma encode_planes_uncancelled sched env σ e w h px ua :
  token_flag σ e = false ->
  (forall t, cancel_pred false env e t = false) ->
  result (encode_planes codec assemble sched env σ e w h px ua) =
  uncancelled_result codec assemble e w h px ua.
Proof.
  intros Hf Hn. unfold encode_planes, uncancelled_result. rewrite Hf.
  destruct (negb (valid_config e)); [done|].
  destruct (codec Color _ w h px) as [cu|]; [|done].
  destruct (if ua then _ else _) as [au|]; [|done].
  apply run_planes_never. exact Hn.
Qed.

(** C2: with a token that is already cancelled when [encode_rgba] or
    [encode_rgb] is called, the call returns [Error::Cancelled] at once,
    for every buffer, configuration and codec engine, and no unit of codec
    work is done. *)
Theorem precancelled_token_returns_cancelled (sched : Schedule) (env : Env) (σ : store)
    (e : Encoder) (t : CancellationToken) (img : Img RGBA8) (img3 : Img RGB8)
    (Htok : cancellation_token e = Some t) (Hc : is_cancelled t σ = true) :
  encode_rgba codec assemble clean_fill sched env σ e img =
    {| result := Err Cancelled; final_state := CancelledS; color_work := [];
       alpha_work := []; finish := 0 |} /\
  encode_rgb codec assemble sched env σ e img3 =
    {| result := Err Cancelled; final_state := CancelledS; color_work := [];
       alpha_work := []; finish := 0 |}.
Proof.
  assert (Hf : token_flag σ e = true) by (unfold token_flag; rewrite Htok; exact Hc).
  unfold encode_rgba, encode_rgb, encode_planes. rewrite Hf. done.
Qed.

(** C3: when no pixel has alpha below 255, a successful [encode_rgba]
    reports [alpha_byte_size = 0] and runs no alpha job, whatever the alpha
    colour mode. *)
Theorem opaque_image_has_no_alpha_payload (sched : Schedule) (env : Env) (σ : store)
    (e : Encoder) (img : Img RGBA8) (x : EncodedImage)
    (Hopaque : Forall (fun p => (255 <= a p)%Z) (pixels img))
    (Hok : result (encode_rgba codec assemble clean_fill sched env σ e img) = Ok x) :
  alpha_byte_size x = 0 /\
  alpha_work (encode_rgba codec assemble clean_fill sched env σ e img) = [].
Proof.
  assert (Hha : has_alpha (pixels img) = false).
  { unfold has_alpha. apply not_true_is_false. intros Hex.
    apply existsb_exists in Hex as [p [Hin Hlt]].
    rewrite List.Forall_forall in Hopaque. specialize (Hopaque p Hin).
    apply Z.ltb_lt in Hlt. lia. }
  revert Hok. unfold encode_rgba, encode_planes. rewrite Hha.
  destruct (token_flag σ e); [simpl; discriminate|].
  destruct (negb (valid_config e)); [simpl; discriminate|].
  destruct (codec Color _ _ _ _) as [cu|]; [|simpl; discriminate].
  simpl. unfold run_planes. cbv zeta.
  repeat case_match; simpl; intros Hr; try discriminate.
  injection Hr as <-. simpl. done.
Qed.

Lemma encode_planes_invalid sched env σ e w h px ua :
  token_flag σ e = false -> valid_config e = false ->
  encode_planes codec assemble sched env σ e w h px ua = failed InvalidConfig.
Proof. intros Hf Hv. unfold encode_planes. rewrite Hf, Hv. done. Qed.

Lemma quality_out_of_range q : (q < 0 \/ 100 < q)%Q -> quality_ok q = false.
Proof.
  intros Hq. unfold quality_ok. apply andb_false_iff.
  destruct Hq as [Hq|Hq]; [left|right]; apply not_true_is_false; rewrite Qle_bool_iff;
    intros Hle; apply (Qlt_not_le _ _ Hq Hle).
Qed.

(** C5: a call that ends in the [Cancelled] state returns the one value
    [Err Cancelled], whatever fired (token or deadline), so no container
    bytes; nothing of the cancelled run is kept: a later call with the
    token after [reset()] is the same as a call with a brand-new token. *)
Theorem cancelled_call_fails_atomically (sched : Schedule) (env : Env) (σ : store)
    (e : Encoder) (img : Img RGBA8) (img3 : Img RGB8) (tok : CancellationToken) :
  (final_state (encode_rgba codec assemble clean_fill sched env σ e img) = CancelledS ->
   result (encode_rgba codec assemble clean_fill sched env σ e img) = Err Cancelled) /\
  (final_state (encode_rgb codec assemble sched env σ e img3) = CancelledS ->
   result (encode_rgb codec assemble sched env σ e img3) = Err Cancelled) /\
  encode_rgba codec assemble clean_fill sched env (reset tok σ) (with_cancellation_token e tok) img =
  encode_rgba codec assemble clean_fill sched env (Cancel.new σ).2
    (with_cancellation_token e (Cancel.new σ).1) img.
Proof.
  split; [apply encode_planes_cancelled|]. split; [apply encode_planes_cancelled|].
  assert (H1 : token_flag (reset tok σ) (with_cancellation_token e tok) = false).
  { unfold token_flag, reset, is_cancelled; simpl. rewrite lookup_insert_eq. done. }
  assert (H2 : token_flag (Cancel.new σ).2 (with_cancellation_token e (Cancel.new σ).1) = false).
  { unfold token_flag, Cancel.new, is_cancelled; simpl. rewrite lookup_insert_eq. done. }
  unfold encode_rgba, encode_planes. rewrite H1, H2. reflexivity.
Qed.

(** C6 (as amended): every setter is a total function that stores the
    value given, unchanged; an out-of-range quality, alpha quality or speed
    makes the encode call return [Error::InvalidConfig] with no codec work,
    unless the configured token is already cancelled at the call. *)
Theorem setters_total_and_validated_at_encode (sched : Schedule) (env : Env) (σ : store)
    (e : Encoder) (img : Img RGBA8) (img3 : Img RGB8) (q : Q) (s : Z)
    (Htok : token_flag σ e = false) :
  quality (with_quality e q) = q /\
  alpha_quality (with_alpha_quality e q) = Some q /\
  speed (with_speed e s) = s /\
  ((q < 0 \/ 100 < q)%Q ->
     encode_rgba codec assemble clean_fill sched env σ (with_quality e q) img = failed InvalidConfig /\
     encode_rgb codec assemble sched env σ (with_quality e q) img3 = failed InvalidConfig /\
     encode_rgba codec assemble clean_fill sched env σ (with_alpha_quality e q) img = failed InvalidConfig /\
     encode_rgb codec assemble sched env σ (with_alpha_quality e q) img3 = failed InvalidConfig) /\
  ((s < 1 \/ 10 < s)%Z ->
     encode_rgba codec assemble clean_fill sched env σ (with_speed e s) img = failed InvalidConfig /\
     encode_rgb codec assemble sched env σ (with_speed e s) img3 = failed InvalidConfig).
Proof.
  split; [done|]. split; [done|]. split; [done|]. split.
  - intros Hq. pose proof (quality_out_of_range q Hq) as Hb.
    assert (Hv1 : valid_config (with_quality e q) = false)
      by (unfold valid_config; simpl; rewrite Hb; done).
    assert (Hv2 : valid_config (with_alpha_quality e q) = false)
      by (unfold valid_config; simpl; rewrite Hb, andb_false_r; done).
    repeat split; apply encode_planes_invalid; done.
  - intros Hs.
    assert (Hv : valid_config (with_speed e s) = false).
    { unfold valid_config; simpl. apply andb_false_iff.
      destruct Hs as [Hs|Hs]; [left; apply andb_false_iff; right; apply Z.leb_gt; lia
                             |right; apply Z.leb_gt; lia]. }
    split; apply encode_planes_invalid; done.
Qed.

(** C7 (as amended): from the first time [T] at which the predicate holds
    (token flag or deadline), each plane job finishes at most the unit it
    is in, which is one unit in total under the sequential scheduling;
    the call returns by [T] plus the longest unit, and never completes at
    or after [T]. *)
Theorem cancellation_latency (sched : Schedule) (env : Env) (σ : store) (e : Encoder)
    (img : Img RGBA8) (T M : nat)
    (Hdur : forall pl k, unit_time env pl k <= M)
    (Hsig : cancel_pred (token_flag σ e) env e T = true) :
  work_after T (color_work (encode_rgba codec assemble clean_fill sched env σ e img)) <= 1 /\
  work_after T (alpha_work (encode_rgba codec assemble clean_fill sched env σ e img)) <= 1 /\
  (sched = Sequential ->
     work_after T (color_work (encode_rgba codec assemble clean_fill sched env σ e img)
                   ++ alpha_work (encode_rgba codec assemble clean_fill sched env σ e img)) <= 1) /\
  finish (encode_rgba codec assemble clean_fill sched env σ e img) <= T + M /\
  (final_state (encode_rgba codec assemble clean_fill sched env σ e img) = Completed ->
   finish (encode_rgba codec assemble clean_fill sched env σ e img) < T).
Proof. exact (encode_planes_latency sched env σ e _ _ _ _ T M Hdur Hsig). Qed.

(** C8: with neither a token nor a timeout configured, two calls on the
    same buffer with the same configuration return the same result, sizes
    included, whatever the timing, the scheduling and the token store. *)
Theorem encode_deterministic_without_cancellation (sched1 sched2 : Schedule) (env1 env2 : Env)
    (σ1 σ2 : store) (e : Encoder) (img : Img RGBA8) (img3 : Img RGB8)
    (Htok : cancellation_token e = None) (Hto : timeout e = None) :
  result (encode_rgba codec assemble clean_fill sched1 env1 σ1 e img) =
  result (encode_rgba codec assemble clean_fill sched2 env2 σ2 e img) /\
  result (encode_rgb codec assemble sched1 env1 σ1 e img3) =
  result (encode_rgb codec assemble sched2 env2 σ2 e img3).
Proof.
  assert (Hf : forall σ, token_flag σ e = false) by (intros σ; unfold token_flag; rewrite Htok; done).
  assert (Hn : forall env t, cancel_pred false env e t = false)
    by (intros env t; unfold cancel_pred; rewrite Htok, Hto; done).
  unfold encode_rgba, encode_rgb.
  split; rewrite !encode_planes_uncancelled; done.
Qed.

(** Without a timeout and without a [cancel()] during the call, the
    sequential and the concurrent scheduling give the same result. *)
Lemma schedules_agree_without_deadline env σ e img :
  timeout e = None -> cancel_at env = None ->
  result (encode_rgba codec assemble clean_fill Sequential env σ e img) =
  result (encode_rgba codec assemble clean_fill Concurrent env σ e img).
Proof.
  intros Hto Hca. unfold encode_rgba.
  destruct (token_flag σ e) eqn:Hf.
  - unfold encode_planes. rewrite Hf. done.
  - assert (Hn : forall t, cancel_pred false env e t = false).
    { intros t. unfold cancel_pred. rewrite Hto, Hca. destruct (cancellation_token e); done. }
    rewrite !encode_planes_uncancelled; done.
Qed.

End EncodeProofs.

(** C10 (as amended): [rayoff::join] runs [a] to completion, then [b];
    for two closures over disjoint parts of the store, every interleaving
    that reaches the join barrier yields the same pair and store as this
    sequential run, which is itself one such interleaving; for the plane
    jobs of the encoder, the sequential and concurrent schedulings agree
    when no timeout is configured and no [cancel()] happens during the
    call. *)
Theorem join_sequential_matches_fork_join :
  (forall (Sa Sb A B : Type) (pa : prog Sa A) (pb : prog Sb B) (sa : Sa) (sb : Sb)
          (x : A) (y : B) (s' : Sa * Sb),
     par_steps (lift_l pa, lift_r pb, (sa, sb)) (Ret x, Ret y, s') ->
     run (join (lift_l pa) (lift_r pb)) (sa, sb) = ((x, y), s')) /\
  (forall (Sa Sb A B : Type) (pa : prog Sa A) (pb : prog Sb B) (sa : Sa) (sb : Sb),
     par_steps (lift_l pa, lift_r pb, (sa, sb))
       (Ret (run (join (lift_l pa) (lift_r pb)) (sa, sb)).1.1,
        Ret (run (join (lift_l pa) (lift_r pb)) (sa, sb)).1.2,
        (run (join (lift_l pa) (lift_r pb)) (sa, sb)).2)) /\
  (forall codec assemble clean_fill (env : Env) (σ : store) (e : Encoder) (img : Img RGBA8),
     timeout e = None -> cancel_at env = None ->
     result (encode_rgba codec assemble clean_fill Sequential env σ e img) =
     result (encode_rgba codec assemble clean_fill Concurrent env σ e img)).
Proof.
  split; [|split].
  - intros Sa Sb A B pa pb sa sb x y s' H.
    destruct (par_steps_independent pa pb sa sb x y s' H) as [Ha Hb].
    rewrite run_join, run_lift_l. simpl. rewrite run_lift_r. simpl.
    rewrite Ha, Hb. destruct s'. done.
  - intros Sa Sb A B pa pb sa sb. rewrite run_join. simpl.
    eapply par_steps_trans; [apply par_steps_left|apply par_steps_right].
  - intros codec assemble clean_fill env σ e img. apply schedules_agree_without_deadline.
Qed.

(* ------------------------------------------------------------------ *)
(** ** Concrete runs                                                   *)
(* ------------------------------------------------------------------ *)

Lemma precancelled_token_returns_cancelled_witness :
  cancellation_token (with_cancellation_token new Demo.tok0) = Some Demo.tok0 /\
  is_cancelled Demo.tok0 Demo.store0 = true /\
  encode_rgba Demo.codec Demo.assemble Demo.clean_fill Sequential (Demo.env None 1) Demo.store0
    (with_cancellation_token new Demo.tok0) (Demo.img1 (Demo.px 1 2 3 255)) =
    {| result := Err Cancelled; final_state := CancelledS; color_work := [];
       alpha_work := []; finish := 0 |}.
Proof.
  split; [reflexivity|]. split; [vm_compute; reflexivity|].
  exact (proj1 (precancelled_token_returns_cancelled Demo.codec Demo.assemble Demo.clean_fill
    Sequential (Demo.env None 1) Demo.store0 (with_cancellation_token new Demo.tok0) Demo.tok0
    (Demo.img1 (Demo.px 1 2 3 255)) {| width := 1; height := 1; pixels := [] |}
    eq_refl ltac:(vm_compute; reflexivity))).
Defined.

Lemma opaque_image_has_no_alpha_payload_witness :
  result (encode_rgba Demo.codec Demo.assemble Demo.clean_fill Sequential (Demo.env None 1) ∅
    new (Demo.img1 (Demo.px 1 2 3 255))) =
    Ok {| avif_file := [1; 1; 1; 2; 3]%Z; color_byte_size := 3; alpha_byte_size := 0 |} /\
  alpha_byte_size {| avif_file := [1; 1; 1; 2; 3]%Z; color_byte_size := 3; alpha_byte_size := 0 |} = 0.
Proof.
  split; [vm_compute; reflexivity|].
  refine (proj1 (opaque_image_has_no_alpha_payload Demo.codec Demo.assemble Demo.clean_fill
    Sequential (Demo.env None 1) ∅ new (Demo.img1 (Demo.px 1 2 3 255)) _ _ _)).
  - repeat constructor. simpl. lia.
  - vm_compute. reflexivity.
Defined.

Lemma cancelled_call_fails_atomically_witness :
  final_state (encode_rgba Demo.codec Demo.assemble Demo.clean_fill Concurrent (Demo.env None 10) ∅
    (with_timeout new 5) (Demo.img1 (Demo.px 1 2 3 0))) = CancelledS /\
  result (encode_rgba Demo.codec Demo.assemble Demo.clean_fill Concurrent (Demo.env None 10) ∅
    (with_timeout new 5) (Demo.img1 (Demo.px 1 2 3 0))) = Err Cancelled.
Proof.
  assert (H : final_state (encode_rgba Demo.codec Demo.assemble Demo.clean_fill Concurrent
    (Demo.env None 10) ∅ (with_timeout new 5) (Demo.img1 (Demo.px 1 2 3 0))) = CancelledS)
    by (vm_compute; reflexivity).
  split; [exact H|].
  exact (proj1 (cancelled_call_fails_atomically Demo.codec Demo.assemble Demo.clean_fill
    Concurrent (Demo.env None 10) ∅ (with_timeout new 5) (Demo.img1 (Demo.px 1 2 3 0))
    {| width := 1; height := 1; pixels := [] |} Demo.tok0) H).
Defined.

(** C6: the claim fails for an out-of-range quality together with a token
    that is already cancelled: the call returns [Error::Cancelled]. *)
Lemma invalid_quality_with_precancelled_token :
  quality_ok (quality (with_quality new 150)) = false /\
  result (encode_rgba Demo.codec Demo.assemble Demo.clean_fill Sequential (Demo.env None 1) Demo.store0
    (with_cancellation_token (with_quality new 150) Demo.tok0) (Demo.img1 (Demo.px 1 2 3 255))) =
    Err Cancelled.
Proof. split; vm_compute; reflexivity. Qed.

Lemma setters_total_and_validated_at_encode_witness :
  token_flag ∅ new = false /\
  encode_rgba Demo.codec Demo.assemble Demo.clean_fill Sequential (Demo.env None 1) ∅
    (with_quality new 150) (Demo.img1 (Demo.px 1 2 3 255)) = failed InvalidConfig.
Proof.
  split; [reflexivity|].
  refine (proj1 (proj1 (proj2 (proj2 (proj2 (setters_total_and_validated_at_encode
    Demo.codec Demo.assemble Demo.clean_fill Sequential (Demo.env None 1) ∅ new
    (Demo.img1 (Demo.px 1 2 3 255)) {| width := 1; height := 1; pixels := [] |} 150 4
    eq_refl)))) _)).
  right. reflexivity.
Defined.

(** C7: the claim fails when the colour and alpha jobs run concurrently:
    with units of 10 ticks and a deadline at 5, both jobs finish the unit
    they are in, two units in total. *)
Lemma concurrent_jobs_two_units_after_deadline :
  cancel_pred (token_flag ∅ (with_timeout new 5)) (Demo.env None 10) (with_timeout new 5) 5 = true /\
  work_after 5
    (color_work (encode_rgba Demo.codec Demo.assemble Demo.clean_fill Concurrent (Demo.env None 10) ∅
       (with_timeout new 5) (Demo.img1 (Demo.px 1 2 3 0)))
     ++ alpha_work (encode_rgba Demo.codec Demo.assemble Demo.clean_fill Concurrent (Demo.env None 10) ∅
       (with_timeout new 5) (Demo.img1 (Demo.px 1 2 3 0)))) = 2.
Proof. split; vm_compute; reflexivity. Qed.

Lemma cancellation_latency_witness :
  (forall pl k, unit_time (Demo.env None 10) pl k <= 10) /\
  cancel_pred (token_flag ∅ (with_timeout new 5)) (Demo.env None 10) (with_timeout new 5) 5 = true /\
  finish (encode_rgba Demo.codec Demo.assemble Demo.clean_fill Sequential (Demo.env None 10) ∅
    (with_timeout new 5) (Demo.img1 (Demo.px 1 2 3 0))) <= 5 + 10.
Proof.
  assert (Hd : forall pl k, unit_time (Demo.env None 10) pl k <= 10) by (intros; simpl; lia).
  assert (Hs : cancel_pred (token_flag ∅ (with_timeout new 5)) (Demo.env None 10)
                 (with_timeout new 5) 5 = true) by (vm_compute; reflexivity).
  split; [exact Hd|]. split; [exact Hs|].
  exact (proj1 (proj2 (proj2 (proj2 (cancellation_latency Demo.codec Demo.assemble Demo.clean_fill
    Sequential (Demo.env None 10) ∅ (with_timeout new 5) (Demo.img1 (Demo.px 1 2 3 0)) 5 10 Hd Hs))))).
Defined.

Lemma encode_deterministic_without_cancellation_witness :
  cancellation_token new = None /\ timeout new = None /\
  result (encode_rgba Demo.codec Demo.assemble Demo.clean_fill Sequential (Demo.env None 1) ∅
    new (Demo.img1 (Demo.px 1 2 3 0))) =
  result (encode_rgba Demo.codec Demo.assemble Demo.clean_fill Concurrent (Demo.env None 7) Demo.store0
    new (Demo.img1 (Demo.px 1 2 3 0))).
Proof.
  split; [reflexivity|]. split; [reflexivity|].
  exact (proj1 (encode_deterministic_without_cancellation Demo.codec Demo.assemble Demo.clean_fill
    Sequential Concurrent (Demo.env None 1) (Demo.env None 7) ∅ Demo.store0 new
    (Demo.img1 (Demo.px 1 2 3 0)) {| width := 1; height := 1; pixels := [] |} eq_refl eq_refl)).
Defined.

(** C10: the claim fails for the plane jobs under a timeout: with units of
    10 ticks and a deadline at 15, the sequential scheduling is cancelled
    (the alpha job ends at 20) while the concurrent one completes at 10. *)
Lemma schedules_differ_under_timeout :
  result (encode_rgba Demo.codec Demo.assemble Demo.clean_fill Sequential (Demo.env None 10) ∅
    (with_timeout new 15) (Demo.img1 (Demo.px 1 2 3 0))) = Err Cancelled /\
  final_state (encode_rgba Demo.codec Demo.assemble Demo.clean_fill Concurrent (Demo.env None 10) ∅
    (with_timeout new 15) (Demo.img1 (Demo.px 1 2 3 0))) = Completed.
Proof. split; vm_compute; reflexivity. Qed.

Lemma join_sequential_matches_fork_join_witness :
  timeout new = None /\ cancel_at (Demo.env None 10) = None /\
  result (encode_rgba Demo.codec Demo.assemble Demo.clean_fill Sequential (Demo.env None 10) ∅
    new (Demo.img1 (Demo.px 1 2 3 0))) =
  result (encode_rgba Demo.codec Demo.assemble Demo.clean_fill Concurrent (Demo.env None 10) ∅
    new (Demo.img1 (Demo.px 1 2 3 0))).
Proof.
  split; [reflexivity|]. split; [reflexivity|].
  exact (proj2 (proj2 join_sequential_matches_fork_join) Demo.codec Demo.assemble Demo.clean_fill
    (Demo.env None 10) ∅ new (Demo.img1 (Demo.px 1 2 3 0)) eq_refl eq_refl).
Defined.

(* ------------------------------------------------------------------ *)
(** ** Further properties of [cancel.rs] and [mod rayoff]               *)
(* ------------------------------------------------------------------ *)

Lemma is_cancelled_exec_op o t σ :
  is_cancelled t (exec_op o σ) =
  if decide (op_cell o = cancelled t) then op_value o else is_cancelled t σ.
Proof.
  destruct o as [t'|t']; simpl; unfold cancel, reset;
    (destruct (decide (cancelled t' = cancelled t)) as [Heq|Hne];
     [apply is_cancelled_insert_same; congruence
     |apply is_cancelled_insert_other; congruence]).
Qed.

Lemma is_cancelled_exec_ops os σ t :
  is_cancelled t (exec_ops os σ) =
  match last_write (cancelled t) os with Some v => v | None => is_cancelled t σ end.
Proof.
  revert σ. induction os as [|o os IH]; intros σ; simpl; [done|].
  rewrite IH. destruct (last_write (cancelled t) os); [done|].
  rewrite is_cancelled_exec_op. destruct (decide (op_cell o = cancelled t)); done.
Qed.

(** X1: after any sequence of [cancel()] and [reset()] calls, on the token
    or on clones of it or on other tokens, [is_cancelled()] returns the
    value stored by the last call on its own flag, or the value before the
    sequence when there was none. *)
Theorem cancel_reset_last_write_wins (os : list op) (σ : store) (t : CancellationToken) :
  is_cancelled t (exec_ops os σ) =
  match last_write (cancelled t) os with Some v => v | None => is_cancelled t σ end.
Proof. apply is_cancelled_exec_ops. Qed.

Lemma last_write_no_reset l os :
  Forall (fun o => match o with OpReset t' => cancelled t' <> l | OpCancel _ => True end) os ->
  last_write l os = None \/ last_write l os = Some true.
Proof.
  induction 1 as [|o os Ho _ IH]; simpl; [left; done|].
  destruct IH as [-> | ->]; [|right; done].
  destruct (decide (op_cell o = l)) as [Heq|]; [|left; done].
  destruct o; simpl in *; [right; done|congruence].
Qed.

(** X2: without a [reset()] on its flag, a cancelled token stays
    cancelled whatever other [cancel()]/[reset()] calls happen. *)
Theorem cancelled_stays_without_reset (os : list op) (σ : store) (t : CancellationToken)
    (Hnoreset : Forall (fun o => match o with
                                 | OpReset t' => cancelled t' <> cancelled t
                                 | OpCancel _ => True end) os)
    (Hc : is_cancelled t σ = true) :
  is_cancelled t (exec_ops os σ) = true.
Proof.
  rewrite is_cancelled_exec_ops.
  destruct (last_write_no_reset (cancelled t) os Hnoreset) as [-> | ->]; done.
Qed.

(** X3: calls on tokens with different flags commute: the resulting
    store is the same in either order. *)
Theorem ops_on_distinct_tokens_commute (o1 o2 : op) (σ : store)
    (Hne : op_cell o1 <> op_cell o2) :
  exec_ops [o1; o2] σ = exec_ops [o2; o1] σ.
Proof.
  destruct o1, o2; simpl in *; unfold cancel, reset; apply insert_insert_ne; done.
Qed.

(** X4: of two consecutive calls on the same flag (through the token or
    any clone) only the second matters; in particular [cancel()] and
    [reset()] are idempotent. *)
Theorem second_op_on_same_flag_overrides (o1 o2 : op) (σ : store)
    (Heq : op_cell o1 = op_cell o2) :
  exec_ops [o1; o2] σ = exec_op o2 σ.
Proof.
  destruct o1, o2; simpl in *; unfold cancel, reset; rewrite Heq; apply insert_insert_eq.
Qed.


(** X6: for closures over disjoint state, [join(a, b)] and [join(b, a)]
    give the same values (swapped) and the same final store. *)
Theorem join_independent_swap {Sa Sb A B} (pa : prog Sa A) (pb : prog Sb B) (sa : Sa) (sb : Sb) :
  run (join (lift_l pa) (lift_r pb)) (sa, sb) =
  (((run (join (lift_r pb) (lift_l pa)) (sa, sb)).1.2,
    (run (join (lift_r pb) (lift_l pa)) (sa, sb)).1.1),
   (run (join (lift_r pb) (lift_l pa)) (sa, sb)).2).
Proof.
  rewrite !run_join, run_lift_l, run_lift_r. simpl.
  rewrite run_lift_l, run_lift_r. simpl. done.
Qed.

(** X7: nested joins associate: [join(join(a, b), c)] and
    [join(a, join(b, c))] run the closures in the same order and give the
    same values (re-nested) and store, for closures sharing any state. *)
Theorem join_assoc {S A B C} (a : prog S A) (b : prog S B) (c : prog S C) (s : S) :
  run (join (join a b) c) s =
  (((run (join a (join b c)) s).1.1, (run (join a (join b c)) s).1.2.1),
    (run (join a (join b c)) s).1.2.2,
   (run (join a (join b c)) s).2).
Proof. rewrite !run_join. simpl. done. Qed.

Lemma cancelled_stays_without_reset_witness :
  is_cancelled Demo.tok0
    (exec_ops [OpReset {| cancelled := 1 |}; OpCancel (clone Demo.tok0)] Demo.store0) = true.
Proof.
  apply cancelled_stays_without_reset.
  - repeat constructor. unfold Demo.tok0; simpl. lia.
  - vm_compute. reflexivity.
Defined.

Lemma ops_on_distinct_tokens_commute_witness :
  exec_ops [OpCancel Demo.tok0; OpReset {| cancelled := 1 |}] Demo.store0 =
  exec_ops [OpReset {| cancelled := 1 |}; OpCancel Demo.tok0] Demo.store0.
Proof. apply ops_on_distinct_tokens_commute. unfold Demo.tok0; simpl. lia. Defined.

Lemma second_op_on_same_flag_overrides_witness :
  exec_ops [OpCancel Demo.tok0; OpReset (clone Demo.tok0)] Demo.store0 =
  exec_op (OpReset (clone Demo.tok0)) Demo.store0.
Proof. apply second_op_on_same_flag_overrides. reflexivity. Defined.
